(** * FileUpload: a shallow embedding of [src/file-upload.tsx]

    The component keeps two pieces of React state, [files] and
    [isDragOver], and talks to two host services: [Math.random] (through
    [generateId]) and the blob URL store ([URL.createObjectURL] and
    [URL.revokeObjectURL]).  The handlers of the component are embedded as
    computations in a small state monad over a [World] that holds the React
    state together with what the host services have been asked so far.

    Conventions.
    - A [File] is the host's file handle, reduced to the three attributes the
      component reads: [name], [size] (an unsigned integer, as [File.size]
      is) and [type] (the declared MIME type).
    - [random_id n] stands for the string that the [n]-th evaluation of
      [Math.random().toString(36).substr(2, 9)] produces; it is a parameter
      of the handlers, so that statements can quantify over every possible
      behaviour of the generator.
    - [URL.createObjectURL] hands out ["blob:0"], ["blob:1"], ... in the
      order of the calls (URLs of the blob scheme, never repeated);
      [URL.revokeObjectURL u] appends [u] to the [revoked] trace, so that
      the number of release calls of a handler is the growth of that trace.
    - A state updater passed to [setFiles] runs once per call. *)

From Stdlib Require Import ZArith List String Lia DecimalString.
From Stdlib Require Import FinFun Permutation.
From Stdlib Require DecimalNat DecimalFacts.
Import ListNotations.

#[local] Open Scope string_scope.
#[local] Open Scope list_scope.

(** ** Data model *)

(** The attributes of the DOM [File] that the component reads. *)
Record File : Type := mkFile {
  name : string;
  size : Z;
  type : string
}.

(** [interface FileWithId { id: string; file: File; previewUrl?: string }] *)
Record FileWithId : Type := mkFileWithId {
  id : string;
  file : File;
  previewUrl : option string
}.

(** JavaScript truthiness of an optional string property: the property is
    present and not the empty string.  This is the test of
    [fileToRemove?.previewUrl] in [removeFile] and of [fileItem.previewUrl]
    in the rendering of a row. *)
Definition truthy (u : option string) : bool :=
  match u with
  | Some s => negb (s =? "")
  | None => false
  end.

(** A record owns a preview handle when its [previewUrl] is truthy. *)
Definition ownsPreview (r : FileWithId) : bool := truthy (previewUrl r).

Record World : Type := mkWorld {
  files : list FileWithId;      (* useState<FileWithId[]>([]) *)
  isDragOver : bool;            (* useState(false) *)
  randomCalls : nat;            (* evaluations of generateId so far *)
  objectUrls : nat;             (* calls of URL.createObjectURL so far *)
  revoked : list string         (* arguments of URL.revokeObjectURL, oldest first *)
}.

Definition initialWorld : World :=
  {| files := []; isDragOver := false; randomCalls := 0; objectUrls := 0;
     revoked := [] |}.

(** The ids of the registry, in order. *)
Definition ids (w : World) : list string := map id (files w).

(** ** A state monad for the handlers *)

Definition Eff (A : Type) : Type := World -> A * World.

Definition ret {A : Type} (a : A) : Eff A := fun w => (a, w).

Definition bind {A B : Type} (m : Eff A) (f : A -> Eff B) : Eff B :=
  fun w => let (a, w') := m w in f a w'.

Declare Scope eff_scope.
Delimit Scope eff_scope with eff.
Notation "x <- m ;; k" := (bind m (fun x => k))
  (at level 61, m at next level, right associativity) : eff_scope.
Notation "m ;;; k" := (bind m (fun _ => k))
  (at level 61, right associativity) : eff_scope.
#[local] Open Scope eff_scope.

(** Running a handler for its effect on the world. *)
Definition exec {A : Type} (m : Eff A) (w : World) : World := snd (m w).

(** [Array.prototype.map] with an effectful callback: the callback runs on
    the elements from left to right. *)
Fixpoint mapM {A B : Type} (f : A -> Eff B) (l : list A) : Eff (list B) :=
  match l with
  | [] => ret []
  | a :: l' => b <- f a ;; bs <- mapM f l' ;; ret (b :: bs)
  end.

(** ** Host services *)

Definition nat_to_string (n : nat) : string :=
  NilZero.string_of_uint (Nat.to_uint n).

(** [URL.createObjectURL(file)] *)
Definition createObjectURL (f : File) : Eff string :=
  fun w =>
    (("blob:" ++ nat_to_string (objectUrls w))%string,
     {| files := files w; isDragOver := isDragOver w;
        randomCalls := randomCalls w; objectUrls := S (objectUrls w);
        revoked := revoked w |}).

(** [URL.revokeObjectURL(url)] *)
Definition revokeObjectURL (u : string) : Eff unit :=
  fun w =>
    (tt,
     {| files := files w; isDragOver := isDragOver w;
        randomCalls := randomCalls w; objectUrls := objectUrls w;
        revoked := revoked w ++ [u] |}).

(** ** React state setters *)

(** [setFiles((prev) => ...)]: the updater receives the current list, may
    call host services, and returns the next list. *)
Definition setFiles (updater : list FileWithId -> Eff (list FileWithId))
  : Eff unit :=
  fun w =>
    let (next, w') := updater (files w) w in
    (tt,
     {| files := next; isDragOver := isDragOver w';
        randomCalls := randomCalls w'; objectUrls := objectUrls w';
        revoked := revoked w' |}).

(** [setIsDragOver(b)] *)
Definition setIsDragOver (b : bool) : Eff unit :=
  fun w =>
    (tt,
     {| files := files w; isDragOver := b;
        randomCalls := randomCalls w; objectUrls := objectUrls w;
        revoked := revoked w |}).

(** [fileToRemove?.previewUrl]: optional chaining on the result of
    [Array.prototype.find]. *)
Definition optPreviewUrl (r : option FileWithId) : option string :=
  match r with
  | Some r' => previewUrl r'
  | None => None
  end.

(** [if (u) { k(u) }] for an optional string [u]. *)
Definition whenTruthy (u : option string) (k : string -> Eff unit) : Eff unit :=
  match u with
  | Some s => if truthy u then k s else ret tt
  | None => ret tt
  end.

(** ** The handlers of the component *)

(** The user interactions the component reacts to. *)
Inductive Event : Type :=
| InputChange (targetFiles : option (list File))
| DragOver
| DragLeave
| Drop (dropped : list File)
| RemoveClick (x : string)
| ClearAllClick.

Section Handlers.

(** The outcomes of the id generator, in the order they are drawn. *)
Variable random_id : nat -> string.

(** [const generateId = () => Math.random().toString(36).substr(2, 9)] *)
Definition generateId : Eff string :=
  fun w =>
    (random_id (randomCalls w),
     {| files := files w; isDragOver := isDragOver w;
        randomCalls := S (randomCalls w); objectUrls := objectUrls w;
        revoked := revoked w |}).

(** The callback of [Array.from(selectedFiles).map(...)]. *)
Definition newFileWithId (f : File) : Eff FileWithId :=
  i <- generateId ;;
  if String.prefix "image/" (type f)
  then u <- createObjectURL f ;;
       ret {| id := i; file := f; previewUrl := Some u |}
  else ret {| id := i; file := f; previewUrl := None |}.

(** [handleFileSelect(selectedFiles: FileList | null)] *)
Definition handleFileSelect (selectedFiles : option (list File)) : Eff unit :=
  match selectedFiles with
  | None => ret tt
  | Some batch =>
      newFiles <- mapM newFileWithId batch ;;
      setFiles (fun prev => ret (prev ++ newFiles))
  end.

(** [handleInputChange]: forwards the picker's files; resetting the value
    of the input element touches nothing of the world. *)
Definition handleInputChange (targetFiles : option (list File)) : Eff unit :=
  handleFileSelect targetFiles.

Definition handleDragOver : Eff unit := setIsDragOver true.

Definition handleDragLeave : Eff unit := setIsDragOver false.

(** [handleDrop]: [dataTransfer.files] is always a [FileList]. *)
Definition handleDrop (dropped : list File) : Eff unit :=
  setIsDragOver false ;;;
  handleFileSelect (Some dropped).

(** [removeFile(id)] *)
Definition removeFile (x : string) : Eff unit :=
  setFiles (fun prev =>
    let fileToRemove := find (fun r => id r =? x) prev in
    whenTruthy (optPreviewUrl fileToRemove) revokeObjectURL ;;;
    ret (filter (fun r => negb (id r =? x)) prev)).

(** The [onClick] of the "Clear All" button: [() => setFiles([])]. *)
Definition clearAll : Eff unit := setFiles (fun _ => ret []).

(** *** Runs of the component *)

Definition handle (e : Event) : Eff unit :=
  match e with
  | InputChange fl => handleInputChange fl
  | DragOver => handleDragOver
  | DragLeave => handleDragLeave
  | Drop fl => handleDrop fl
  | RemoveClick x => removeFile x
  | ClearAllClick => clearAll
  end.

(** The world after a sequence of events, starting from [w]. *)
Definition run (es : list Event) (w : World) : World :=
  fold_left (fun w e => exec (handle e) w) es w.

End Handlers.

(** ** Size formatting *)

(** [formatFileSize] is applied to [fileItem.file.size], an unsigned integer
    below [2^53].  On such an argument every floating-point step of the
    function but one is exact: [Math.pow(k, i)] is a power of two, so the
    quotient [bytes / Math.pow(k, i)] is the exact rational; [toFixed(2)]
    rounds that rational to hundredths, ties upwards; [Number.parseFloat]
    followed by the conversion back to a string prints the hundredths without
    trailing zeros.  The remaining step, [Math.floor(Math.log(bytes) /
    Math.log(k))], is embedded as the exact integer logarithm
    [floor_log_k]: it is what the expression computes whenever the quotient
    of the two logarithms does not round across an integer.  That is so at
    [bytes = k], where the quotient is [x / x = 1], and at [k^2] and [k^4]:
    a logarithm that is correctly rounded, or computed as fdlibm does for a
    power of two, returns there the logarithm of [k] doubled once or twice,
    and doubling is exact in binary. *)

Definition k : Z := 1024.

Definition sizes : list string := ["Bytes"; "KB"; "MB"; "GB"].

(** [Math.floor(Math.log(bytes) / Math.log(k))] for [bytes > 0]. *)
Definition floor_log_k (bytes : Z) : Z := Z.log2 bytes / Z.log2 k.

(** [sizes[i]]: [undefined] (here [None]) outside of the array. *)
Definition sizes_at (i : Z) : option string :=
  if (i <? 0)%Z then None else nth_error sizes (Z.to_nat i).

(** String concatenation with a possibly [undefined] operand. *)
Definition js_string (o : option string) : string :=
  match o with
  | Some s => s
  | None => "undefined"
  end.

Definition Z_to_string (z : Z) : string := NilZero.string_of_int (Z.to_int z).

(** [(num / den).toFixed(2)] as a number of hundredths, for [num >= 0] and
    [den > 0]: the nearest hundredth, the larger one on a tie. *)
Definition toFixed2 (num den : Z) : Z := ((200 * num + den) / (2 * den))%Z.

(** [Number.parseFloat(s) + ""] for the output [s] of [toFixed(2)], given as
    hundredths: the decimal numeral without trailing zeros. *)
Definition hundredths_to_string (h : Z) : string :=
  let q := (h / 100)%Z in
  let r := (h mod 100)%Z in
  if (r =? 0)%Z then Z_to_string q
  else if (r mod 10 =? 0)%Z
       then (Z_to_string q ++ "." ++ Z_to_string (r / 10))%string
       else (Z_to_string q ++ "." ++ Z_to_string (r / 10)
               ++ Z_to_string (r mod 10))%string.

(** The unit label that [formatFileSize] appends for [bytes > 0]. *)
Definition unitLabel (bytes : Z) : string :=
  js_string (sizes_at (floor_log_k bytes)).

(** [formatFileSize(bytes)].  A negative argument, which no file has, makes
    [Math.log] return [NaN], and every later step propagates it. *)
Definition formatFileSize (bytes : Z) : string :=
  if (bytes =? 0)%Z then "0 Bytes"
  else if (bytes <? 0)%Z then "NaN undefined"
  else
    let i := floor_log_k bytes in
    (hundredths_to_string (toFixed2 bytes (k ^ i)) ++ " "
       ++ js_string (sizes_at i))%string.

(** ** Rendering *)

(** The element tree that the component returns, reduced to the parts that
    depend on the state: which elements exist, the texts and image sources
    they show, and what a click on each button does.  Class names and the
    static texts of the drop zone are left out. *)

(** What an [onClick] does: run a handler of the component, open the native
    file picker ([openFileDialog], which touches nothing of the world), or
    nothing (the button has no [onClick]). *)
Inductive Action : Type :=
| Dispatch (e : Event)
| OpenFileDialog
| NoAction.

(** The first cell of a row: [<img src=... alt=...>] or the [File] icon. *)
Inductive Thumbnail : Type :=
| ImgThumb (src alt : string)
| FileIcon.

Record RowView : Type := mkRowView {
  rowKey : string;          (* key={fileItem.id} *)
  thumbnail : Thumbnail;
  nameText : string;        (* {fileItem.file.name} *)
  sizeText : string;        (* {formatFileSize(fileItem.file.size)} *)
  removeClick : Action      (* onClick={() => removeFile(fileItem.id)} *)
}.

Record FooterView : Type := mkFooterView {
  clearClick : Action;      (* onClick={() => setFiles([])} *)
  uploadText : string;      (* Upload Files ({files.length}) *)
  uploadClick : Action      (* no onClick *)
}.

Record ListView : Type := mkListView {
  headerText : string;      (* Selected Files ({files.length}) *)
  addMoreClick : Action;    (* onClick={openFileDialog} *)
  rows : list RowView;
  footer : option FooterView
}.

Record View : Type := mkView {
  dropZoneActive : bool;    (* the highlighted border of the drop zone *)
  browseClick : Action;     (* onClick={openFileDialog} *)
  fileList : option ListView
}.

(** [a || b] on strings. *)
Definition js_or (a b : string) : string := if a =? "" then b else a.

(** The callback of [files.map((fileItem) => ...)] in the JSX. *)
Definition renderRow (fileItem : FileWithId) : RowView :=
  {| rowKey := id fileItem;
     thumbnail :=
       match previewUrl fileItem with
       | Some u =>
           if truthy (previewUrl fileItem)
           then ImgThumb (js_or u "/placeholder.svg") (name (file fileItem))
           else FileIcon
       | None => FileIcon
       end;
     nameText := name (file fileItem);
     sizeText := formatFileSize (size (file fileItem));
     removeClick := Dispatch (RemoveClick (id fileItem)) |}.

(** The [return (...)] of [FileUpload]. *)
Definition render (w : World) : View :=
  let n := List.length (files w) in
  {| dropZoneActive := isDragOver w;
     browseClick := OpenFileDialog;
     fileList :=
       if Nat.ltb 0 n
       then Some
              {| headerText :=
                   ("Selected Files (" ++ nat_to_string n ++ ")")%string;
                 addMoreClick := OpenFileDialog;
                 rows := map renderRow (files w);
                 footer :=
                   if Nat.ltb 0 n
                   then Some
                          {| clearClick := Dispatch ClearAllClick;
                             uploadText :=
                               ("Upload Files (" ++ nat_to_string n ++ ")")%string;
                             uploadClick := NoAction |}
                   else None |}
       else None |}.

(** ** Notions used in the statements *)

(** The release calls that [removeFile x] issues on the list [l]: the trace
    of one call when the first record with id [x] owns a preview handle. *)
Definition releasedBy (x : string) (l : list FileWithId) : list string :=
  match optPreviewUrl (find (fun r => id r =? x) l) with
  | Some u => if truthy (Some u) then [u] else []
  | None => []
  end.

(** The preview handles owned by the records of a list, in order. *)
Definition ownedPreviews (l : list FileWithId) : list string :=
  flat_map (fun r => match previewUrl r with
                     | Some u => if ownsPreview r then [u] else []
                     | None => []
                     end) l.

(** [Subseq s l]: [s] is [l] with some elements left out, the others in
    their order. *)
Inductive Subseq {A : Type} : list A -> list A -> Prop :=
| Subseq_nil : Subseq [] []
| Subseq_skip : forall a s l, Subseq s l -> Subseq s (a :: l)
| Subseq_keep : forall a s l, Subseq s l -> Subseq (a :: s) (a :: l).

(** The outcomes of the generator drawn up to a world, oldest first. *)
Definition draws (random_id : nat -> string) (w : World) : list string :=
  map random_id (seq 0 (randomCalls w)).

(** The ids held are among the outcomes drawn, in the order of drawing. *)
Definition held_ids_drawn (random_id : nat -> string) (w : World) : Prop :=
  Subseq (ids w) (draws random_id w).

(** Two files used in examples. *)
Definition photo : File :=
  {| name := "photo.png"; size := 1536; type := "image/png" |}.

Definition report : File :=
  {| name := "report.pdf"; size := 1048576; type := "application/pdf" |}.

(** A generator whose every draw is ["i"], the id that
    [Math.random() = 0.5] yields ([0.5] is [0.i] in base 36). *)
Definition stuck_generator : nat -> string := fun _ => "i".

(** A generator that never repeats: ["0"], ["1"], ["2"], ... *)
Definition counting_generator : nat -> string := nat_to_string.

(** The rows on screen: those of the list when it is rendered, none
    otherwise. *)
Definition rowsOf (v : View) : list RowView :=
  match fileList v with
  | Some lv => rows lv
  | None => []
  end.

(** The world after a click, for a generator [random_id]. *)
Definition perform (random_id : nat -> string) (a : Action) (w : World)
  : World :=
  match a with
  | Dispatch e => exec (handle random_id e) w
  | OpenFileDialog => w
  | NoAction => w
  end.

(** The [n]-th URL that [URL.createObjectURL] hands out. *)
Definition blobUrl (n : nat) : string := ("blob:" ++ nat_to_string n)%string.

(** The URLs created up to a world, oldest first. *)
Definition created (w : World) : list string :=
  map blobUrl (seq 0 (objectUrls w)).

(** What holds of the preview handles in every world the component can
    reach: the handles owned by the records were created, in the order of
    the records; what was released was created, is owned by no record, and
    was released once; a record owns a handle exactly when its file declares
    an image type, and has no [previewUrl] otherwise. *)
Record consistent (w : World) : Prop := mkConsistent {
  owned_created : Subseq (ownedPreviews (files w)) (created w);
  revoked_created : incl (revoked w) (created w);
  revoked_not_owned :
    forall u, In u (revoked w) -> ~ In u (ownedPreviews (files w));
  revoked_once : NoDup (revoked w);
  preview_for_images :
    Forall (fun r =>
              ownsPreview r = String.prefix "image/" (type (file r)) /\
              (previewUrl r = None <->
               String.prefix "image/" (type (file r)) = false))
           (files w)
}.

(** A URL that was created, is not released and is owned by no record. *)
Definition lost (w : World) (u : string) : Prop :=
  In u (created w) /\ ~ In u (revoked w) /\
  ~ In u (ownedPreviews (files w)).

(** Every created URL is either released or still owned by a record. *)
Definition balanced (w : World) : Prop :=
  objectUrls w
  = List.length (revoked w) + List.length (ownedPreviews (files w)).

(** The files that an interaction hands to [handleFileSelect]. *)
Definition batchOf (e : Event) : list File :=
  match e with
  | InputChange (Some batch) => batch
  | Drop batch => batch
  | _ => []
  end.

(** Interactions that take nothing out of the registry. *)
Definition keepsRecords (e : Event) : bool :=
  match e with
  | RemoveClick _ | ClearAllClick => false
  | _ => true
  end.

(** Interactions of a drag gesture that stays over the drop zone. *)
Definition isDragMove (e : Event) : bool :=
  match e with
  | DragOver | DragLeave => true
  | _ => false
  end.

(** Interactions other than a click on "Clear All". *)
Definition notClearAll (e : Event) : bool :=
  match e with
  | ClearAllClick => false
  | _ => true
  end.

(** * Properties *)

(** ** Subsequences *)

Lemma Subseq_refl {A : Type} (l : list A) : Subseq l l.
Proof. induction l; constructor; assumption. Qed.

Lemma Subseq_nil_l {A : Type} (l : list A) : Subseq [] l.
Proof. induction l; constructor; assumption. Qed.

Lemma Subseq_trans {A : Type} (s m l : list A) :
  Subseq s m -> Subseq m l -> Subseq s l.
Proof.
  intros Hsm Hml. revert s Hsm.
  induction Hml as [|a m l _ IH|a m l _ IH]; intros s Hsm.
  - assumption.
  - apply Subseq_skip, IH, Hsm.
  - inversion Hsm; subst.
    + apply Subseq_skip, IH. assumption.
    + apply Subseq_keep, IH. assumption.
Qed.

Lemma Subseq_app {A : Type} (s1 l1 s2 l2 : list A) :
  Subseq s1 l1 -> Subseq s2 l2 -> Subseq (s1 ++ s2) (l1 ++ l2).
Proof.
  intros H1 H2. induction H1; simpl.
  - assumption.
  - apply Subseq_skip. assumption.
  - apply Subseq_keep. assumption.
Qed.

Lemma Subseq_In {A : Type} (s l : list A) (a : A) :
  Subseq s l -> In a s -> In a l.
Proof.
  intros H. induction H; simpl; intros Ha.
  - assumption.
  - right. auto.
  - destruct Ha as [Ha|Ha]; [left; assumption | right; auto].
Qed.

Lemma Subseq_NoDup {A : Type} (s l : list A) :
  Subseq s l -> NoDup l -> NoDup s.
Proof.
  intros H. induction H; intros Hl.
  - constructor.
  - inversion Hl; subst. auto.
  - inversion Hl as [|? ? Hnotin Hnd]; subst. constructor.
    + intros Hin. apply Hnotin. eapply Subseq_In; eassumption.
    + auto.
Qed.

Lemma Subseq_filter {A : Type} (p : A -> bool) (l : list A) :
  Subseq (filter p l) l.
Proof.
  induction l as [|a l IH]; simpl.
  - constructor.
  - destruct (p a); constructor; assumption.
Qed.

Lemma Subseq_map {A B : Type} (f : A -> B) (s l : list A) :
  Subseq s l -> Subseq (map f s) (map f l).
Proof. intros H. induction H; simpl; constructor; assumption. Qed.

(** ** What each handler does to the world *)

Section HandlerFacts.

Variable random_id : nat -> string.

(** The record built for one file, and the world after building it. *)
Lemma newFileWithId_eq (f : File) (w : World) :
  newFileWithId random_id f w =
  let img := String.prefix "image/" (type f) in
  ({| id := random_id (randomCalls w); file := f;
      previewUrl :=
        if img then Some ("blob:" ++ nat_to_string (objectUrls w))%string
        else None |},
   {| files := files w; isDragOver := isDragOver w;
      randomCalls := S (randomCalls w);
      objectUrls := if img then S (objectUrls w) else objectUrls w;
      revoked := revoked w |}).
Proof.
  unfold newFileWithId, bind, generateId, createObjectURL, ret.
  destruct (String.prefix "image/" (type f)); reflexivity.
Qed.

Lemma mapM_cons {A B : Type} (g : A -> Eff B) (a : A) (l : list A)
      (w : World) :
  mapM g (a :: l) w =
  (fst (g a w) :: fst (mapM g l (snd (g a w))),
   snd (mapM g l (snd (g a w)))).
Proof.
  simpl. unfold bind, ret. destruct (g a w) as [b w0]; simpl.
  destruct (mapM g l w0); reflexivity.
Qed.

(** The records built for a batch, and the world after building them. *)
Lemma mapM_newFileWithId_world (batch : list File) (w : World) :
  let w' := snd (mapM (newFileWithId random_id) batch w) in
  files w' = files w /\ isDragOver w' = isDragOver w /\
  revoked w' = revoked w /\
  randomCalls w' = randomCalls w + List.length batch.
Proof.
  revert w. induction batch as [|f batch IH]; intros w.
  - simpl. repeat split. lia.
  - rewrite mapM_cons, newFileWithId_eq. cbn [snd].
    match goal with
    | |- context [mapM _ batch ?w0] =>
        destruct (IH w0) as (Hf & Hd & Hr & Hc)
    end.
    cbn [files isDragOver revoked randomCalls] in Hf, Hd, Hr, Hc.
    rewrite Hf, Hd, Hr, Hc. cbn [List.length]. repeat split. lia.
Qed.

Lemma mapM_newFileWithId_file (batch : list File) (w : World) :
  map file (fst (mapM (newFileWithId random_id) batch w)) = batch.
Proof.
  revert w. induction batch as [|f batch IH]; intros w.
  - reflexivity.
  - rewrite mapM_cons. cbn [fst map]. rewrite IH.
    rewrite newFileWithId_eq. reflexivity.
Qed.

Lemma mapM_newFileWithId_id (batch : list File) (w : World) :
  map id (fst (mapM (newFileWithId random_id) batch w))
  = map random_id (seq (randomCalls w) (List.length batch)).
Proof.
  revert w. induction batch as [|f batch IH]; intros w.
  - reflexivity.
  - rewrite mapM_cons. cbn [fst map List.length seq]. rewrite IH.
    rewrite newFileWithId_eq. reflexivity.
Qed.

Lemma blob_url_truthy (n : nat) :
  truthy (Some ("blob:" ++ nat_to_string n)%string) = true.
Proof. reflexivity. Qed.

Lemma newFileWithId_preview (f : File) (w : World) :
  let r := fst (newFileWithId random_id f w) in
  file r = f /\
  ownsPreview r = String.prefix "image/" (type f) /\
  (previewUrl r = None <-> String.prefix "image/" (type f) = false).
Proof.
  rewrite newFileWithId_eq. cbn [fst file previewUrl]. unfold ownsPreview.
  cbn [previewUrl].
  destruct (String.prefix "image/" (type f)).
  - rewrite blob_url_truthy. repeat split; discriminate.
  - repeat split; reflexivity.
Qed.

Lemma mapM_newFileWithId_preview (batch : list File) (w : World) :
  Forall2 (fun f r =>
             file r = f /\
             ownsPreview r = String.prefix "image/" (type f) /\
             (previewUrl r = None <-> String.prefix "image/" (type f) = false))
          batch (fst (mapM (newFileWithId random_id) batch w)).
Proof.
  revert w. induction batch as [|f batch IH]; intros w.
  - constructor.
  - rewrite mapM_cons. cbn [fst]. constructor.
    + apply newFileWithId_preview.
    + apply IH.
Qed.

Lemma handleFileSelect_files (batch : list File) (w : World) :
  files (exec (handleFileSelect random_id (Some batch)) w)
  = files w ++ fst (mapM (newFileWithId random_id) batch w).
Proof.
  unfold exec, handleFileSelect, bind, setFiles, ret.
  pose proof (mapM_newFileWithId_world batch w) as Hw.
  destruct (mapM (newFileWithId random_id) batch w) as [recs w'].
  simpl in *. destruct Hw as (Hf & _). rewrite Hf. reflexivity.
Qed.

Lemma handleFileSelect_frame (batch : list File) (w : World) :
  let w' := exec (handleFileSelect random_id (Some batch)) w in
  isDragOver w' = isDragOver w /\ revoked w' = revoked w /\
  randomCalls w' = randomCalls w + List.length batch.
Proof.
  unfold exec, handleFileSelect, bind, setFiles, ret.
  pose proof (mapM_newFileWithId_world batch w) as Hw.
  destruct (mapM (newFileWithId random_id) batch w) as [recs w'].
  simpl in *. tauto.
Qed.

Lemma handleFileSelect_null (w : World) :
  exec (handleFileSelect random_id None) w = w.
Proof. reflexivity. Qed.

Lemma handleFileSelect_empty (w : World) :
  exec (handleFileSelect random_id (Some [])) w = w.
Proof.
  destruct w. unfold exec, handleFileSelect, bind, setFiles, ret; simpl.
  rewrite app_nil_r. reflexivity.
Qed.

End HandlerFacts.

Lemma removeFile_files (x : string) (w : World) :
  files (exec (removeFile x) w)
  = filter (fun r => negb (id r =? x)) (files w).
Proof.
  unfold exec, removeFile, setFiles, bind, whenTruthy, ret, revokeObjectURL.
  destruct (optPreviewUrl _) as [u|]; [destruct (truthy (Some u))|];
    reflexivity.
Qed.

Lemma removeFile_revoked (x : string) (w : World) :
  revoked (exec (removeFile x) w) = revoked w ++ releasedBy x (files w).
Proof.
  unfold exec, removeFile, setFiles, bind, whenTruthy, ret, revokeObjectURL,
    releasedBy.
  destruct (optPreviewUrl _) as [u|]; [destruct (truthy (Some u))|];
    simpl; try reflexivity; rewrite app_nil_r; reflexivity.
Qed.

Lemma removeFile_frame (x : string) (w : World) :
  let w' := exec (removeFile x) w in
  isDragOver w' = isDragOver w /\ randomCalls w' = randomCalls w /\
  objectUrls w' = objectUrls w.
Proof.
  unfold exec, removeFile, setFiles, bind, whenTruthy, ret, revokeObjectURL.
  destruct (optPreviewUrl _) as [u|]; [destruct (truthy (Some u))|];
    simpl; repeat split.
Qed.

(** A world is determined by its five components. *)
Lemma World_ext (w1 w2 : World) :
  files w1 = files w2 -> isDragOver w1 = isDragOver w2 ->
  randomCalls w1 = randomCalls w2 -> objectUrls w1 = objectUrls w2 ->
  revoked w1 = revoked w2 -> w1 = w2.
Proof. destruct w1, w2; simpl; intros; subst; reflexivity. Qed.

Lemma clearAll_world (w : World) :
  exec clearAll w
  = {| files := []; isDragOver := isDragOver w;
       randomCalls := randomCalls w; objectUrls := objectUrls w;
       revoked := revoked w |}.
Proof. reflexivity. Qed.

(** ** Searching and filtering the registry by id *)

Section ById.

Variable x : string.

Lemma filter_id_absent (l : list FileWithId) :
  ~ In x (map id l) -> filter (fun r => negb (id r =? x)) l = l.
Proof.
  induction l as [|r l IH]; simpl; intros Hx.
  - reflexivity.
  - destruct (String.eqb_spec (id r) x) as [E|_]; simpl.
    + exfalso. apply Hx. left. assumption.
    + rewrite IH; [reflexivity | intros H; apply Hx; right; assumption].
Qed.

Lemma find_id_absent (l : list FileWithId) :
  ~ In x (map id l) -> find (fun r => id r =? x) l = None.
Proof.
  induction l as [|r l IH]; simpl; intros Hx.
  - reflexivity.
  - destruct (String.eqb_spec (id r) x) as [E|_].
    + exfalso. apply Hx. left. assumption.
    + apply IH. intros H. apply Hx. right. assumption.
Qed.

Lemma find_id_first (l1 l2 : list FileWithId) (r : FileWithId) :
  ~ In x (map id l1) -> id r = x ->
  find (fun r' => id r' =? x) (l1 ++ r :: l2) = Some r.
Proof.
  intros Hx Hr. induction l1 as [|a l1 IH]; simpl.
  - rewrite Hr, String.eqb_refl. reflexivity.
  - destruct (String.eqb_spec (id a) x) as [E|_].
    + exfalso. apply Hx. left. assumption.
    + apply IH. intros H. apply Hx. right. assumption.
Qed.

Lemma filter_id_In (l : list FileWithId) (r : FileWithId) :
  In r (filter (fun r' => negb (id r' =? x)) l) <-> In r l /\ id r <> x.
Proof.
  rewrite filter_In. split; intros [Hin H]; split; try assumption.
  - destruct (String.eqb_spec (id r) x); [discriminate | assumption].
  - destruct (String.eqb_spec (id r) x); [contradiction | reflexivity].
Qed.

Lemma filter_id_gone (l : list FileWithId) :
  ~ In x (map id (filter (fun r => negb (id r =? x)) l)).
Proof.
  rewrite in_map_iff. intros (r & Hid & Hin).
  apply filter_id_In in Hin. destruct Hin as [_ Hne]. contradiction.
Qed.

Lemma filter_id_unique (l1 l2 : list FileWithId) (r : FileWithId) :
  ~ In x (map id l1) -> ~ In x (map id l2) -> id r = x ->
  filter (fun r' => negb (id r' =? x)) (l1 ++ r :: l2) = l1 ++ l2.
Proof.
  intros H1 H2 Hr. rewrite filter_app. simpl.
  rewrite Hr, String.eqb_refl. simpl.
  rewrite (filter_id_absent l1 H1), (filter_id_absent l2 H2). reflexivity.
Qed.

End ById.

Lemma NoDup_ids_split (l1 l2 : list FileWithId) (r : FileWithId) :
  NoDup (map id (l1 ++ r :: l2)) ->
  ~ In (id r) (map id l1) /\ ~ In (id r) (map id l2).
Proof.
  rewrite map_app. simpl. intros H. apply NoDup_remove_2 in H.
  split; intros Hin; apply H, in_or_app; [left | right]; assumption.
Qed.

Lemma releasedBy_absent (x : string) (l : list FileWithId) :
  ~ In x (map id l) -> releasedBy x l = [].
Proof.
  intros H. unfold releasedBy. rewrite (find_id_absent x l H). reflexivity.
Qed.

Lemma releasedBy_first (x : string) (l1 l2 : list FileWithId)
      (r : FileWithId) :
  ~ In x (map id l1) -> id r = x ->
  releasedBy x (l1 ++ r :: l2)
  = match previewUrl r with
    | Some u => if ownsPreview r then [u] else []
    | None => []
    end.
Proof.
  intros H Hr. unfold releasedBy, ownsPreview.
  rewrite (find_id_first x l1 l2 r H Hr). simpl.
  destruct (previewUrl r); reflexivity.
Qed.

Lemma releasedBy_length (x : string) (l : list FileWithId) :
  List.length (releasedBy x l) <= 1.
Proof.
  unfold releasedBy. destruct (optPreviewUrl _) as [u|]; simpl;
    [destruct (negb (u =? "")); simpl|]; lia.
Qed.

(** ** Clearing the registry *)

(** The "Clear All" handler empties the list and touches nothing else: the
    trace of release calls is the one it found. *)
Lemma clearAll_no_release (w : World) :
  files (exec clearAll w) = [] /\ revoked (exec clearAll w) = revoked w.
Proof. rewrite clearAll_world. split; reflexivity. Qed.

(** C1, at a registry holding one picked image (N = 1, M = 1): the record
    owns the preview handle ["blob:0"]; "Clear All" empties the registry
    but issues no release call, where the claim asks for one; removing the
    same record with [removeFile] does release the handle. *)
Theorem clearAll_leaves_previews_unreleased :
  let w := exec (handleInputChange stuck_generator (Some [photo]))
                initialWorld in
  ownedPreviews (files w) = ["blob:0"] /\
  files (exec clearAll w) = [] /\
  revoked (exec clearAll w) = revoked w /\
  revoked (exec (removeFile "i") w) = revoked w ++ ["blob:0"].
Proof. cbv zeta. repeat split. Qed.

(** ** Size formatting *)

Lemma log2_k : Z.log2 k = 10%Z.
Proof. reflexivity. Qed.

Lemma k_pow (i : Z) : (0 <= i)%Z -> (k ^ i = 2 ^ (10 * i))%Z.
Proof.
  intros Hi. change k with (2 ^ 10)%Z.
  rewrite <- Z.pow_mul_r by lia. reflexivity.
Qed.

Lemma floor_log_k_nonneg (bytes : Z) : (0 <= floor_log_k bytes)%Z.
Proof.
  unfold floor_log_k. rewrite log2_k.
  apply Z.div_pos; [apply Z.log2_nonneg | lia].
Qed.


(** Below [k^4] the index stays inside [sizes]. *)
Lemma unitLabel_below_terabyte (bytes : Z) :
  (0 < bytes < k ^ 4)%Z -> In (unitLabel bytes) sizes.
Proof.
  intros [Hpos Hlt].
  assert (Hi : (0 <= floor_log_k bytes < 4)%Z).
  { split; [apply floor_log_k_nonneg|].
    unfold floor_log_k. rewrite log2_k.
    apply Z.div_lt_upper_bound; [lia|].
    apply Z.log2_lt_pow2; assumption. }
  unfold unitLabel, sizes_at.
  destruct (Z.ltb_spec (floor_log_k bytes) 0); [lia|].
  assert (Hn : Z.to_nat (floor_log_k bytes) < 4) by lia.
  destruct (Z.to_nat (floor_log_k bytes)) as [|[|[|[|n]]]]; simpl; auto.
  lia.
Qed.

(** From [k^4] on the index leaves [sizes], and the label is the string
    that JavaScript prints for [undefined]. *)
Lemma unitLabel_from_terabyte (bytes : Z) :
  (k ^ 4 <= bytes)%Z -> unitLabel bytes = "undefined".
Proof.
  intros Hge.
  assert (Hi : (4 <= floor_log_k bytes)%Z).
  { unfold floor_log_k. rewrite log2_k.
    apply Z.div_le_lower_bound; [lia|].
    apply Z.log2_le_pow2; [|exact Hge].
    apply Z.lt_le_trans with (k ^ 4)%Z; [reflexivity | assumption]. }
  unfold unitLabel, sizes_at.
  destruct (Z.ltb_spec (floor_log_k bytes) 0); [reflexivity|].
  assert (Hnone : nth_error sizes (Z.to_nat (floor_log_k bytes)) = None).
  { apply nth_error_None. simpl. lia. }
  rewrite Hnone. reflexivity.
Qed.

(** C2, at one and at two tebibytes: the unit index is 4, one past the last
    label, and the formatted size ends with ["undefined"] instead of one of
    the four labels. *)
Theorem formatFileSize_terabyte_undefined :
  floor_log_k 1099511627776 = 4%Z /\
  sizes_at 4 = None /\
  formatFileSize 1099511627776 = "1 undefined" /\
  formatFileSize 2199023255552 = "2 undefined".
Proof. repeat split. Qed.

(** C4: the four sample sizes of the specification. *)
Theorem formatFileSize_samples :
  formatFileSize 0 = "0 Bytes" /\
  formatFileSize 1024 = "1 KB" /\
  formatFileSize 1536 = "1.5 KB" /\
  formatFileSize 1048576 = "1 MB".
Proof. repeat split. Qed.

(** ** Selecting files *)

(** C5: the records that [handleFileSelect] adds for a batch correspond to
    the files of the batch one by one, and the record of a file owns a
    preview handle exactly when the declared MIME type of the file starts
    with ["image/"]; otherwise its [previewUrl] is absent.  In particular a
    record built from an ["image/png"] file owns a preview handle and one
    built from an ["application/pdf"] file has no [previewUrl]. *)
Theorem preview_iff_image_type :
  forall (random_id : nat -> string) (batch : list File) (w : World),
    (exists newFiles,
        files (exec (handleFileSelect random_id (Some batch)) w)
        = files w ++ newFiles /\
        Forall2 (fun f r =>
                   file r = f /\
                   (ownsPreview r = true <->
                    String.prefix "image/" (type f) = true) /\
                   (previewUrl r = None <->
                    String.prefix "image/" (type f) = false))
                batch newFiles) /\
    (forall (n : string) (sz : Z),
        ownsPreview
          (fst (newFileWithId random_id (mkFile n sz "image/png") w)) = true /\
        previewUrl
          (fst (newFileWithId random_id (mkFile n sz "application/pdf") w))
        = None).
Proof.
  intros random_id batch w. split.
  - exists (fst (mapM (newFileWithId random_id) batch w)). split.
    + apply handleFileSelect_files.
    + eapply Forall2_impl; [|apply mapM_newFileWithId_preview].
      intros f r (Hf & Ho & Hn). rewrite Ho. tauto.
  - intros n sz. rewrite !newFileWithId_eq. split; reflexivity.
Qed.

(** C6: [handleFileSelect] keeps the records already present, in place, and
    appends one record per file of the batch, in the order of the batch;
    selecting [a, b] and then [c] adds the files [a, b, c] in this order;
    an empty batch changes nothing. *)
Theorem select_appends_in_batch_order :
  forall (random_id : nat -> string) (w : World),
    (forall batch : list File,
        exists newFiles,
          files (exec (handleFileSelect random_id (Some batch)) w)
          = files w ++ newFiles /\
          map file newFiles = batch) /\
    (forall a b c : File,
        map file
          (files (exec (handleFileSelect random_id (Some [c]))
                       (exec (handleFileSelect random_id (Some [a; b])) w)))
        = map file (files w) ++ [a; b; c]) /\
    exec (handleFileSelect random_id (Some [])) w = w.
Proof.
  intros random_id w. split; [|split].
  - intros batch.
    exists (fst (mapM (newFileWithId random_id) batch w)). split.
    + apply handleFileSelect_files.
    + apply mapM_newFileWithId_file.
  - intros a b c. rewrite !handleFileSelect_files, !map_app.
    rewrite !mapM_newFileWithId_file, <- app_assoc. reflexivity.
  - apply handleFileSelect_empty.
Qed.

(** ** Removing a file *)

(** C7: in a registry with pairwise distinct ids, removing the id of a
    record that owns a preview handle issues exactly one release call, for
    that handle, and leaves no record with that id. *)
Theorem remove_releases_owned_preview :
  forall (w : World) (x : string) (r : FileWithId) (u : string),
    NoDup (ids w) ->
    In r (files w) -> id r = x ->
    previewUrl r = Some u -> ownsPreview r = true ->
    revoked (exec (removeFile x) w) = revoked w ++ [u] /\
    ~ In x (ids (exec (removeFile x) w)).
Proof.
  intros w x r u Hnd Hin Hid Hu Hown. split.
  - rewrite removeFile_revoked. f_equal.
    apply in_split in Hin. destruct Hin as (l1 & l2 & Hl).
    unfold ids in Hnd. rewrite Hl in *.
    apply NoDup_ids_split in Hnd. destruct Hnd as [H1 _].
    rewrite Hid in H1.
    rewrite (releasedBy_first x l1 l2 r H1 Hid), Hu, Hown. reflexivity.
  - unfold ids. rewrite removeFile_files. apply filter_id_gone.
Qed.

Lemma remove_releases_owned_preview_witness :
  let w := exec (handleInputChange counting_generator (Some [report; photo]))
                initialWorld in
  revoked (exec (removeFile "1") w) = revoked w ++ ["blob:0"] /\
  ~ In "1" (ids (exec (removeFile "1") w)).
Proof.
  cbv zeta.
  apply (remove_releases_owned_preview _ "1"
           {| id := "1"; file := photo; previewUrl := Some "blob:0" |}).
  - vm_compute. repeat constructor; simpl; intuition discriminate.
  - vm_compute. right. left. reflexivity.
  - reflexivity.
  - reflexivity.
  - reflexivity.
Defined.

(** C8: removing an id that the registry does not hold changes nothing and
    releases nothing; removing the same id a second time is such a call, so
    it is a no-op; and when the ids are pairwise distinct the two calls
    together take away at most one record and issue at most one release
    call. *)
Theorem remove_absent_is_noop :
  forall (w : World) (x : string),
    (~ In x (ids w) -> exec (removeFile x) w = w) /\
    exec (removeFile x) (exec (removeFile x) w) = exec (removeFile x) w /\
    (NoDup (ids w) ->
     List.length (files w)
     <= S (List.length (files (exec (removeFile x) (exec (removeFile x) w)))) /\
     List.length (revoked (exec (removeFile x) (exec (removeFile x) w)))
     <= S (List.length (revoked w))).
Proof.
  intros w x.
  assert (Habsent : forall w0, ~ In x (ids w0) -> exec (removeFile x) w0 = w0).
  { intros w0 H0. unfold ids in H0.
    destruct (removeFile_frame x w0) as (Hd & Hc & Ho).
    apply World_ext; try assumption.
    - rewrite removeFile_files. apply filter_id_absent. assumption.
    - rewrite removeFile_revoked, releasedBy_absent by assumption.
      apply app_nil_r. }
  assert (Htwice : exec (removeFile x) (exec (removeFile x) w)
                   = exec (removeFile x) w).
  { apply Habsent. unfold ids. rewrite removeFile_files.
    apply filter_id_gone. }
  split; [apply Habsent | split; [exact Htwice|]].
  intros Hnd. rewrite Htwice. split.
  - rewrite removeFile_files.
    destruct (in_dec string_dec x (ids w)) as [Hin|Hout].
    + unfold ids in Hin, Hnd. apply in_map_iff in Hin.
      destruct Hin as (r & Hid & Hin).
      apply in_split in Hin. destruct Hin as (l1 & l2 & Hl).
      rewrite Hl in *. apply NoDup_ids_split in Hnd.
      rewrite Hid in Hnd. destruct Hnd as [H1 H2].
      rewrite (filter_id_unique x l1 l2 r H1 H2 Hid).
      rewrite !length_app. simpl. lia.
    + rewrite filter_id_absent by exact Hout. lia.
  - rewrite removeFile_revoked, length_app.
    pose proof (releasedBy_length x (files w)). lia.
Qed.

Lemma remove_absent_is_noop_witness :
  let w := exec (handleInputChange counting_generator (Some [report; photo]))
                initialWorld in
  exec (removeFile "7") w = w /\
  exec (removeFile "1") (exec (removeFile "1") w) = exec (removeFile "1") w /\
  List.length (files w)
  <= S (List.length (files (exec (removeFile "1") (exec (removeFile "1") w)))).
Proof.
  cbv zeta. split; [|split].
  - apply (remove_absent_is_noop _ "7"). vm_compute. intuition discriminate.
  - apply (remove_absent_is_noop _ "1").
  - apply (remove_absent_is_noop _ "1").
    vm_compute. repeat constructor; simpl; intuition discriminate.
Defined.

(** C9: in a registry with pairwise distinct ids, [removeFile x] leaves the
    drag-over flag alone, keeps every record whose id is not [x] as it is,
    and keeps the remaining records in their order: the list either is
    unchanged ([x] is not held) or loses exactly the one record with id [x]
    from between its neighbours. *)
Theorem remove_keeps_other_records :
  forall (w : World) (x : string),
    NoDup (ids w) ->
    let w' := exec (removeFile x) w in
    isDragOver w' = isDragOver w /\
    (forall r, In r (files w) -> id r <> x -> In r (files w')) /\
    Subseq (files w') (files w) /\
    ((~ In x (ids w) /\ files w' = files w) \/
     (exists l1 r l2,
         files w = l1 ++ r :: l2 /\ id r = x /\ files w' = l1 ++ l2)).
Proof.
  intros w x Hnd w'. subst w'.
  destruct (removeFile_frame x w) as (Hd & _ & _).
  rewrite removeFile_files. repeat split.
  - exact Hd.
  - intros r Hin Hne. apply filter_id_In. split; assumption.
  - apply Subseq_filter.
  - destruct (in_dec string_dec x (ids w)) as [Hin|Hout].
    + right. unfold ids in Hin, Hnd. apply in_map_iff in Hin.
      destruct Hin as (r & Hid & Hin).
      apply in_split in Hin. destruct Hin as (l1 & l2 & Hl).
      exists l1, r, l2. rewrite Hl in *.
      apply NoDup_ids_split in Hnd. rewrite Hid in Hnd.
      destruct Hnd as [H1 H2].
      repeat split; try assumption.
      apply filter_id_unique; assumption.
    + left. split; [assumption|]. apply filter_id_absent. exact Hout.
Qed.

Lemma remove_keeps_other_records_witness :
  let w := exec (handleDrop counting_generator [report; photo; report])
                (exec handleDragOver initialWorld) in
  let w' := exec (removeFile "1") w in
  isDragOver w' = isDragOver w /\
  (forall r, In r (files w) -> id r <> "1" -> In r (files w')) /\
  Subseq (files w') (files w) /\
  ((~ In "1" (ids w) /\ files w' = files w) \/
   (exists l1 r l2,
       files w = l1 ++ r :: l2 /\ id r = "1" /\ files w' = l1 ++ l2)).
Proof.
  cbv zeta. apply (remove_keeps_other_records _ "1").
  vm_compute. repeat constructor; simpl; intuition discriminate.
Defined.

(** C10: in any registry, also one where several records share the id [x],
    [removeFile x] takes away every record with id [x] and keeps the
    others; it issues at most one release call, which is for the preview
    handle of the first record with id [x] when that record owns one.  The
    preview handles of later records with the same id leave the registry
    without a release call. *)
Theorem remove_releases_first_match_only :
  forall (w : World) (x : string),
    let w' := exec (removeFile x) w in
    (forall r, In r (files w') <-> In r (files w) /\ id r <> x) /\
    (exists calls,
        revoked w' = revoked w ++ calls /\ List.length calls <= 1) /\
    (forall l1 r l2,
        files w = l1 ++ r :: l2 -> ~ In x (map id l1) -> id r = x ->
        revoked w' = revoked w ++
                     match previewUrl r with
                     | Some u => if ownsPreview r then [u] else []
                     | None => []
                     end).
Proof.
  intros w x w'. subst w'. rewrite removeFile_files, removeFile_revoked.
  split; [|split].
  - intros r. apply filter_id_In.
  - exists (releasedBy x (files w)). split; [reflexivity|].
    apply releasedBy_length.
  - intros l1 r l2 Hl H1 Hid. rewrite Hl.
    rewrite (releasedBy_first x l1 l2 r H1 Hid). reflexivity.
Qed.

(** Two images picked while the generator repeats itself: both records get
    the id ["i"]; removing ["i"] empties the registry, releases ["blob:0"]
    and leaves ["blob:1"] unreleased. *)
Lemma remove_releases_first_match_only_witness :
  let w := exec (handleInputChange stuck_generator (Some [photo; photo]))
                initialWorld in
  let w' := exec (removeFile "i") w in
  ownedPreviews (files w) = ["blob:0"; "blob:1"] /\
  files w' = [] /\
  revoked w' = revoked w ++ ["blob:0"].
Proof.
  cbv zeta. split; [reflexivity | split; [reflexivity|]].
  apply (proj2 (proj2 (remove_releases_first_match_only
           (exec (handleInputChange stuck_generator (Some [photo; photo]))
                 initialWorld) "i"))
           []
           {| id := "i"; file := photo; previewUrl := Some "blob:0" |}
           [{| id := "i"; file := photo; previewUrl := Some "blob:1" |}]).
  - reflexivity.
  - simpl. tauto.
  - reflexivity.
Defined.

(** ** Uniqueness of ids *)

Section Uniqueness.

Variable random_id : nat -> string.

Lemma handleFileSelect_held_ids_drawn (o : option (list File)) (w : World) :
  held_ids_drawn random_id w ->
  held_ids_drawn random_id (exec (handleFileSelect random_id o) w).
Proof.
  unfold held_ids_drawn, draws, ids. intros H.
  destruct o as [batch|]; [|exact H].
  destruct (handleFileSelect_frame random_id batch w) as (_ & _ & Hc).
  rewrite Hc, handleFileSelect_files, map_app, mapM_newFileWithId_id.
  rewrite seq_app, map_app. simpl.
  apply Subseq_app; [exact H | apply Subseq_refl].
Qed.

Lemma handle_held_ids_drawn (e : Event) (w : World) :
  held_ids_drawn random_id w ->
  held_ids_drawn random_id (exec (handle random_id e) w).
Proof.
  intros H. destruct e as [o| | |dropped|x|]; simpl.
  - apply handleFileSelect_held_ids_drawn. exact H.
  - exact H.
  - exact H.
  - change (exec (handleDrop random_id dropped) w)
      with (exec (handleFileSelect random_id (Some dropped))
                 (exec (setIsDragOver false) w)).
    apply handleFileSelect_held_ids_drawn. exact H.
  - unfold held_ids_drawn, draws, ids in *.
    destruct (removeFile_frame x w) as (_ & Hc & _).
    rewrite Hc, removeFile_files.
    eapply Subseq_trans; [|exact H].
    apply Subseq_map, Subseq_filter.
  - unfold held_ids_drawn, ids. rewrite clearAll_world. simpl.
    apply Subseq_nil_l.
Qed.

Lemma run_held_ids_drawn (es : list Event) (w : World) :
  held_ids_drawn random_id w ->
  held_ids_drawn random_id (run random_id es w).
Proof.
  revert w. induction es as [|e es IH]; intros w H; simpl.
  - exact H.
  - apply IH, handle_held_ids_drawn, H.
Qed.

End Uniqueness.

(** C3, as the code has it: after every sequence of interactions, the ids
    of the registry are pairwise distinct provided the outcomes that the id
    generator produced during these interactions are pairwise distinct. *)
Theorem ids_distinct_when_draws_distinct :
  forall (random_id : nat -> string) (es : list Event),
    let w := run random_id es initialWorld in
    NoDup (map random_id (seq 0 (randomCalls w))) -> NoDup (ids w).
Proof.
  intros random_id es w Hnd. eapply Subseq_NoDup; [|exact Hnd].
  apply run_held_ids_drawn. apply Subseq_nil.
Qed.

Lemma ids_distinct_when_draws_distinct_witness :
  NoDup (ids (run counting_generator
                  [Drop [photo; report]; RemoveClick "0";
                   InputChange (Some [photo])]
                  initialWorld)).
Proof.
  apply (ids_distinct_when_draws_distinct counting_generator
           [Drop [photo; report]; RemoveClick "0";
            InputChange (Some [photo])]).
  vm_compute. repeat constructor; simpl; intuition discriminate.
Defined.

(** C3 as stated fails: when the generator returns ["i"] twice, the two
    records of one picked batch share their id. *)
Lemma ids_collide_when_generator_repeats :
  ~ NoDup (ids (run stuck_generator
                    [InputChange (Some [photo; report])] initialWorld)).
Proof.
  vm_compute. intros H. inversion H as [|a l Hnotin _]; subst.
  apply Hnotin. left. reflexivity.
Qed.

(** * Further properties of the component *)

(** ** Size formatting below one tebibyte *)

Lemma k_pow_pos (i : Z) : (0 <= i)%Z -> (0 < k ^ i)%Z.
Proof. intros Hi. apply Z.pow_pos_nonneg; [reflexivity | assumption]. Qed.



Lemma formatFileSize_positive (bytes : Z) :
  (0 < bytes)%Z ->
  formatFileSize bytes
  = (hundredths_to_string (toFixed2 bytes (k ^ floor_log_k bytes)) ++ " "
       ++ js_string (sizes_at (floor_log_k bytes)))%string.
Proof.
  intros Hpos. unfold formatFileSize.
  destruct (Z.eqb_spec bytes 0); [lia|].
  destruct (Z.ltb_spec bytes 0); [lia|]. reflexivity.
Qed.



Lemma floor_log_k_multiple (n i : Z) :
  (1 <= n < k)%Z -> (0 <= i)%Z -> floor_log_k (n * k ^ i) = i.
Proof.
  intros [Hn1 Hn2] Hi. unfold floor_log_k. rewrite log2_k, k_pow by lia.
  rewrite Z.log2_mul_pow2 by lia.
  assert (HL : (0 <= Z.log2 n < 10)%Z).
  { split; [apply Z.log2_nonneg|]. apply Z.log2_lt_pow2; [lia|exact Hn2]. }
  symmetry. apply Z.div_unique with (Z.log2 n); lia.
Qed.

Lemma toFixed2_multiple (n d : Z) :
  (0 < d)%Z -> toFixed2 (n * d) d = (100 * n)%Z.
Proof.
  intros Hd. unfold toFixed2.
  replace (200 * (n * d) + d)%Z with ((200 * n + 1) * d)%Z by ring.
  rewrite Z.div_mul_cancel_r by lia.
  symmetry. apply Z.div_unique with 1%Z; lia.
Qed.

Lemma hundredths_to_string_whole (n : Z) :
  hundredths_to_string (100 * n) = Z_to_string n.
Proof.
  unfold hundredths_to_string.
  replace (100 * n)%Z with (n * 100)%Z by ring.
  rewrite Z.mod_mul, Z.div_mul by lia. reflexivity.
Qed.

(** X2: a size that is a whole number [n] (from 1 to 1023) of bytes,
    kibibytes, mebibytes or gibibytes is printed as that number, without
    decimals, followed by the label of the unit. *)
Theorem formatFileSize_whole_units :
  forall (n i : Z) (label : string),
    (1 <= n < k)%Z ->
    (0 <= i)%Z ->
    nth_error sizes (Z.to_nat i) = Some label ->
    formatFileSize (n * k ^ i) = (Z_to_string n ++ " " ++ label)%string.
Proof.
  intros n i label Hn Hi Hlabel.
  pose proof (k_pow_pos i Hi) as Hd.
  rewrite formatFileSize_positive by nia.
  rewrite floor_log_k_multiple by assumption.
  rewrite toFixed2_multiple by assumption.
  rewrite hundredths_to_string_whole.
  unfold sizes_at. destruct (Z.ltb_spec i 0); [lia|].
  rewrite Hlabel. reflexivity.
Qed.

Lemma formatFileSize_whole_units_witness :
  formatFileSize (512 * k ^ 3) = (Z_to_string 512 ++ " " ++ "GB")%string.
Proof.
  apply (formatFileSize_whole_units 512 3 "GB").
  - split; reflexivity || discriminate.
  - discriminate.
  - reflexivity.
Defined.

(** ** The URLs of the blob store *)

Lemma to_uint_nonnil (n : nat) : Nat.to_uint n <> Decimal.Nil.
Proof.
  rewrite <- (DecimalNat.Unsigned.of_to n) at 1.
  rewrite DecimalNat.Unsigned.to_of.
  apply DecimalFacts.unorm_nonnil.
Qed.

Lemma nat_to_string_inj (m n : nat) :
  nat_to_string m = nat_to_string n -> m = n.
Proof.
  unfold nat_to_string. intros H.
  apply DecimalNat.Unsigned.to_uint_inj.
  pose proof (NilZero.usu (Nat.to_uint m) (to_uint_nonnil m)) as Hm.
  pose proof (NilZero.usu (Nat.to_uint n) (to_uint_nonnil n)) as Hn.
  rewrite H in Hm. rewrite Hm in Hn. injection Hn. auto.
Qed.

Lemma blobUrl_inj : Injective blobUrl.
Proof.
  intros m n H. unfold blobUrl in H. simpl in H.
  apply nat_to_string_inj. congruence.
Qed.

Lemma NoDup_created (w : World) : NoDup (created w).
Proof.
  unfold created. apply Injective_map_NoDup;
    [apply blobUrl_inj | apply seq_NoDup].
Qed.

Lemma NoDup_app_disjoint {A : Type} (l1 l2 : list A) (a : A) :
  NoDup (l1 ++ l2) -> In a l1 -> In a l2 -> False.
Proof.
  induction l1 as [|b l1 IH]; simpl; intros Hnd H1 H2.
  - contradiction.
  - inversion Hnd as [|? ? Hnotin Hnd']; subst.
    destruct H1 as [->|H1].
    + apply Hnotin, in_or_app. right. assumption.
    + apply IH; assumption.
Qed.

Lemma Subseq_flat_map {A B : Type} (f : A -> list B) (s l : list A) :
  Subseq s l -> Subseq (flat_map f s) (flat_map f l).
Proof.
  intros H. induction H; simpl.
  - constructor.
  - change (flat_map f s) with ([] ++ flat_map f s).
    apply Subseq_app; [apply Subseq_nil_l | assumption].
  - apply Subseq_app; [apply Subseq_refl | assumption].
Qed.

(** ** The preview handles owned by a list of records *)

Lemma in_ownedPreviews (l : list FileWithId) (u : string) :
  In u (ownedPreviews l) <->
  exists r, In r l /\ previewUrl r = Some u /\ ownsPreview r = true.
Proof.
  unfold ownedPreviews. rewrite in_flat_map. split.
  - intros (r & Hin & Hu). exists r. split; [assumption|].
    destruct (previewUrl r) as [u'|] eqn:Hp; [|contradiction].
    destruct (ownsPreview r); [|contradiction].
    destruct Hu as [->|[]]. split; reflexivity.
  - intros (r & Hin & Hp & Ho). exists r. split; [assumption|].
    rewrite Hp, Ho. left. reflexivity.
Qed.

Lemma ownedPreviews_owner_unique (l : list FileWithId) (r r' : FileWithId)
      (u : string) :
  NoDup (ownedPreviews l) ->
  In r l -> previewUrl r = Some u -> ownsPreview r = true ->
  In r' l -> previewUrl r' = Some u -> ownsPreview r' = true ->
  r = r'.
Proof.
  induction l as [|a l IH]; simpl; intros Hnd Hr Hp Ho Hr' Hp' Ho'.
  - contradiction.
  - assert (Hhead : forall b, In b l -> previewUrl b = Some u ->
                              ownsPreview b = true ->
                              previewUrl a = Some u -> ownsPreview a = true ->
                              False).
    { intros b Hb Hpb Hob Hpa Hoa.
      change (ownedPreviews (a :: l)) with
        ((match previewUrl a with
          | Some u0 => if ownsPreview a then [u0] else []
          | None => []
          end) ++ ownedPreviews l) in Hnd.
      rewrite Hpa, Hoa in Hnd.
      apply (NoDup_app_disjoint [u] (ownedPreviews l) u Hnd).
      - left. reflexivity.
      - apply in_ownedPreviews. exists b. auto. }
    assert (Htail : NoDup (ownedPreviews l)).
    { change (ownedPreviews (a :: l)) with
        ((match previewUrl a with
          | Some u0 => if ownsPreview a then [u0] else []
          | None => []
          end) ++ ownedPreviews l) in Hnd.
      apply NoDup_app_remove_l in Hnd. exact Hnd. }
    destruct Hr as [->|Hr], Hr' as [->|Hr'].
    + reflexivity.
    + exfalso. eapply Hhead; eassumption.
    + exfalso. eapply Hhead; eassumption.
    + apply IH; assumption.
Qed.

Lemma releasedBy_owned (x : string) (l : list FileWithId) (u : string) :
  In u (releasedBy x l) ->
  exists r, In r l /\ id r = x /\ previewUrl r = Some u /\
            ownsPreview r = true.
Proof.
  unfold releasedBy.
  destruct (find _ l) as [r|] eqn:Hfind; cbn [optPreviewUrl].
  - apply find_some in Hfind. destruct Hfind as [Hin Hid].
    apply String.eqb_eq in Hid.
    destruct (previewUrl r) as [u'|] eqn:Hp; [|intros []].
    destruct (truthy (Some u')) eqn:Ht; [|intros []].
    intros [->|[]]. exists r. unfold ownsPreview. rewrite Hp. auto.
  - intros [].
Qed.

Lemma releasedBy_NoDup (x : string) (l : list FileWithId) :
  NoDup (releasedBy x l).
Proof.
  unfold releasedBy. destruct (optPreviewUrl _) as [u|];
    [destruct (truthy (Some u))|]; repeat constructor. intros [].
Qed.

(** ** Consistency of the preview handles along a run *)

Section Consistency.

Variable random_id : nat -> string.

(** The handles of the records built for a batch are the next URLs of the
    blob store, one per image of the batch. *)
Lemma mapM_newFileWithId_owned (batch : list File) (w : World) :
  exists c,
    objectUrls (snd (mapM (newFileWithId random_id) batch w))
    = objectUrls w + c /\
    ownedPreviews (fst (mapM (newFileWithId random_id) batch w))
    = map blobUrl (seq (objectUrls w) c).
Proof.
  revert w. induction batch as [|f batch IH]; intros w.
  - exists 0. simpl. split; [lia | reflexivity].
  - rewrite mapM_cons, newFileWithId_eq. cbn [fst snd].
    match goal with
    | |- context [mapM _ batch ?w0] => destruct (IH w0) as (c & Hc & Ho)
    end.
    cbn [objectUrls] in Hc, Ho.
    destruct (String.prefix "image/" (type f)) eqn:Himg.
    + exists (S c). split; [lia|].
      change (ownedPreviews (?r :: ?l)) with
        ((match previewUrl r with
          | Some u0 => if ownsPreview r then [u0] else []
          | None => []
          end) ++ ownedPreviews l).
      rewrite Ho. reflexivity.
    + exists c. split; [lia|].
      change (ownedPreviews (?r :: ?l)) with
        ((match previewUrl r with
          | Some u0 => if ownsPreview r then [u0] else []
          | None => []
          end) ++ ownedPreviews l).
      rewrite Ho. reflexivity.
Qed.

Lemma mapM_newFileWithId_images (batch : list File) (w : World) :
  Forall (fun r =>
            ownsPreview r = String.prefix "image/" (type (file r)) /\
            (previewUrl r = None <->
             String.prefix "image/" (type (file r)) = false))
         (fst (mapM (newFileWithId random_id) batch w)).
Proof.
  revert w. induction batch as [|f batch IH]; intros w.
  - constructor.
  - rewrite mapM_cons. cbn [fst]. constructor; [|apply IH].
    destruct (newFileWithId_preview random_id f w) as (Hf & Ho & Hn).
    rewrite Hf. split; assumption.
Qed.

Lemma handleFileSelect_objectUrls (batch : list File) (w : World) :
  objectUrls (exec (handleFileSelect random_id (Some batch)) w)
  = objectUrls (snd (mapM (newFileWithId random_id) batch w)).
Proof.
  unfold exec, handleFileSelect, bind, setFiles, ret.
  destruct (mapM (newFileWithId random_id) batch w) as [recs w'].
  reflexivity.
Qed.

Lemma created_grows (w w' : World) (c : nat) :
  objectUrls w' = objectUrls w + c ->
  created w' = created w ++ map blobUrl (seq (objectUrls w) c).
Proof.
  intros H. unfold created. rewrite H, seq_app, map_app. reflexivity.
Qed.

Lemma handleFileSelect_consistent (o : option (list File)) (w : World) :
  consistent w -> consistent (exec (handleFileSelect random_id o) w).
Proof.
  intros [Hoc Hrc Hrn Hro Himg]. destruct o as [batch|];
    [|constructor; assumption].
  destruct (mapM_newFileWithId_owned batch w) as (c & Hc & Hown).
  rewrite <- handleFileSelect_objectUrls in Hc.
  destruct (handleFileSelect_frame random_id batch w) as (_ & Hr & _).
  pose proof (created_grows w _ c Hc) as Hcr.
  pose proof (NoDup_created (exec (handleFileSelect random_id (Some batch)) w))
    as Hnd.
  constructor.
  - rewrite handleFileSelect_files, Hcr.
    unfold ownedPreviews. rewrite flat_map_app. fold ownedPreviews.
    apply Subseq_app; [exact Hoc|].
    fold (ownedPreviews (fst (mapM (newFileWithId random_id) batch w))).
    rewrite Hown. apply Subseq_refl.
  - rewrite Hr, Hcr. apply incl_appl. exact Hrc.
  - rewrite Hr, handleFileSelect_files. intros u Hu Hin.
    unfold ownedPreviews in Hin. rewrite flat_map_app in Hin.
    apply in_app_or in Hin. destruct Hin as [Hin|Hin].
    + exact (Hrn u Hu Hin).
    + fold (ownedPreviews (fst (mapM (newFileWithId random_id) batch w)))
        in Hin.
      rewrite Hown in Hin. rewrite Hcr in Hnd.
      exact (NoDup_app_disjoint _ _ u Hnd (Hrc u Hu) Hin).
  - rewrite Hr. exact Hro.
  - rewrite handleFileSelect_files. apply Forall_app. split;
      [exact Himg | apply mapM_newFileWithId_images].
Qed.

Lemma setIsDragOver_consistent (b : bool) (w : World) :
  consistent w -> consistent (exec (setIsDragOver b) w).
Proof. intros [Hoc Hrc Hrn Hro Himg]. constructor; assumption. Qed.

Lemma removeFile_consistent (x : string) (w : World) :
  consistent w -> consistent (exec (removeFile x) w).
Proof.
  intros [Hoc Hrc Hrn Hro Himg].
  destruct (removeFile_frame x w) as (_ & _ & Hobj).
  assert (Hcr : created (exec (removeFile x) w) = created w).
  { unfold created. rewrite Hobj. reflexivity. }
  assert (Hsub : Subseq (ownedPreviews (files (exec (removeFile x) w)))
                        (ownedPreviews (files w))).
  { rewrite removeFile_files. apply Subseq_flat_map, Subseq_filter. }
  assert (Hndo : NoDup (ownedPreviews (files w))).
  { eapply Subseq_NoDup; [exact Hoc | apply NoDup_created]. }
  assert (Hrel : forall u, In u (releasedBy x (files w)) ->
                           In u (ownedPreviews (files w))).
  { intros u Hu. apply releasedBy_owned in Hu.
    destruct Hu as (r & Hin & _ & Hp & Ho).
    apply in_ownedPreviews. exists r. auto. }
  constructor.
  - rewrite Hcr. eapply Subseq_trans; eassumption.
  - rewrite Hcr, removeFile_revoked. apply incl_app; [exact Hrc|].
    intros u Hu. eapply Subseq_In; [exact Hoc|]. apply Hrel, Hu.
  - rewrite removeFile_revoked. intros u Hu Hin.
    apply in_app_or in Hu. destruct Hu as [Hu|Hu].
    + apply (Hrn u Hu). eapply Subseq_In; eassumption.
    + apply releasedBy_owned in Hu.
      destruct Hu as (r & Hr & Hid & Hp & Ho).
      rewrite removeFile_files in Hin. apply in_ownedPreviews in Hin.
      destruct Hin as (r' & Hr' & Hp' & Ho').
      apply filter_id_In in Hr'. destruct Hr' as [Hr' Hne].
      apply Hne. rewrite <- Hid. f_equal. symmetry.
      eapply ownedPreviews_owner_unique; eassumption.
  - rewrite removeFile_revoked. apply NoDup_app.
    + exact Hro.
    + apply releasedBy_NoDup.
    + intros u Hu Hin. apply (Hrn u Hu). apply Hrel, Hin.
  - rewrite removeFile_files. apply Forall_forall. intros r Hr.
    apply filter_In in Hr. destruct Hr as [Hr _].
    rewrite Forall_forall in Himg. apply Himg, Hr.
Qed.

Lemma clearAll_consistent (w : World) :
  consistent w -> consistent (exec clearAll w).
Proof.
  intros [Hoc Hrc Hrn Hro Himg]. rewrite clearAll_world. constructor; simpl.
  - apply Subseq_nil_l.
  - exact Hrc.
  - intros u _ [].
  - exact Hro.
  - constructor.
Qed.

Lemma handle_consistent (e : Event) (w : World) :
  consistent w -> consistent (exec (handle random_id e) w).
Proof.
  intros H. destruct e as [o| | |dropped|x|]; simpl.
  - apply handleFileSelect_consistent, H.
  - apply setIsDragOver_consistent, H.
  - apply setIsDragOver_consistent, H.
  - change (exec (handleDrop random_id dropped) w)
      with (exec (handleFileSelect random_id (Some dropped))
                 (exec (setIsDragOver false) w)).
    apply handleFileSelect_consistent, setIsDragOver_consistent, H.
  - apply removeFile_consistent, H.
  - apply clearAll_consistent, H.
Qed.

Lemma run_consistent (es : list Event) (w : World) :
  consistent w -> consistent (run random_id es w).
Proof.
  revert w. induction es as [|e es IH]; intros w H; simpl.
  - exact H.
  - apply IH, handle_consistent, H.
Qed.

Lemma initialWorld_consistent : consistent initialWorld.
Proof.
  constructor; simpl.
  - constructor.
  - intros u [].
  - intros u [].
  - constructor.
  - constructor.
Qed.

End Consistency.

(** A present [previewUrl] of a consistent world is an owned handle. *)
Lemma consistent_present_owned (w : World) (r : FileWithId) (u : string) :
  consistent w -> In r (files w) -> previewUrl r = Some u ->
  ownsPreview r = true.
Proof.
  intros Hc Hin Hp. pose proof (preview_for_images w Hc) as Himg.
  rewrite Forall_forall in Himg. destruct (Himg r Hin) as [Ho Hn].
  rewrite Ho. destruct (String.prefix "image/" (type (file r))); [reflexivity|].
  destruct Hn as [_ Hn]. rewrite Hn in Hp by reflexivity. discriminate.
Qed.

(** X3: in every world the component reaches, whatever the generator
    returns, a record of the registry owns a preview handle exactly when
    the declared type of its file starts with ["image/"], and it has no
    [previewUrl] at all otherwise. *)
Theorem reachable_preview_iff_image :
  forall (random_id : nat -> string) (es : list Event) (r : FileWithId),
    In r (files (run random_id es initialWorld)) ->
    (ownsPreview r = true <->
     String.prefix "image/" (type (file r)) = true) /\
    (previewUrl r = None <->
     String.prefix "image/" (type (file r)) = false).
Proof.
  intros random_id es r Hin.
  pose proof (run_consistent random_id es _ initialWorld_consistent) as Hc.
  pose proof (preview_for_images _ Hc) as Himg.
  rewrite Forall_forall in Himg. destruct (Himg r Hin) as [Ho Hn].
  rewrite Ho. tauto.
Qed.

Lemma reachable_preview_iff_image_witness :
  (ownsPreview {| id := "i"; file := photo; previewUrl := Some "blob:1" |}
   = true <-> String.prefix "image/" (type photo) = true) /\
  (previewUrl {| id := "i"; file := photo; previewUrl := Some "blob:1" |}
   = None <-> String.prefix "image/" (type photo) = false).
Proof.
  apply (reachable_preview_iff_image stuck_generator
           [Drop [photo; report; photo]; DragOver; RemoveClick "x"]).
  vm_compute. right. right. left. reflexivity.
Defined.

(** X4: in every world the component reaches, whatever the generator
    returns, no record of the registry carries a [previewUrl] that has been
    passed to [URL.revokeObjectURL]: the rows on screen never show a
    released URL, also when ids collide. *)
Theorem reachable_no_revoked_preview :
  forall (random_id : nat -> string) (es : list Event) (r : FileWithId)
         (u : string),
    In r (files (run random_id es initialWorld)) ->
    previewUrl r = Some u ->
    ~ In u (revoked (run random_id es initialWorld)).
Proof.
  intros random_id es r u Hin Hp Hrev.
  pose proof (run_consistent random_id es _ initialWorld_consistent) as Hc.
  apply (revoked_not_owned _ Hc u Hrev).
  apply in_ownedPreviews. exists r. repeat split; try assumption.
  eapply consistent_present_owned; eassumption.
Qed.

Lemma reachable_no_revoked_preview_witness :
  ~ In "blob:1"
       (revoked (run stuck_generator
                     [InputChange (Some [photo]); RemoveClick "i";
                      Drop [photo]]
                     initialWorld)).
Proof.
  apply (reachable_no_revoked_preview stuck_generator
           [InputChange (Some [photo]); RemoveClick "i"; Drop [photo]]
           {| id := "i"; file := photo; previewUrl := Some "blob:1" |}).
  - vm_compute. left. reflexivity.
  - reflexivity.
Defined.

(** X5: in every world the component reaches, no URL has been released
    twice, every released URL is one that [URL.createObjectURL] returned
    before, and the handles released and the handles owned together are no
    more than the handles created. *)
Theorem reachable_release_once :
  forall (random_id : nat -> string) (es : list Event),
    let w := run random_id es initialWorld in
    NoDup (revoked w) /\
    incl (revoked w) (created w) /\
    List.length (revoked w) + List.length (ownedPreviews (files w))
    <= objectUrls w.
Proof.
  intros random_id es w.
  pose proof (run_consistent random_id es _ initialWorld_consistent) as Hc.
  fold w in Hc. destruct Hc as [Hoc Hrc Hrn Hro Himg].
  split; [exact Hro | split; [exact Hrc|]].
  assert (Hlen : List.length (created w) = objectUrls w).
  { unfold created. rewrite length_map, length_seq. reflexivity. }
  rewrite <- Hlen, <- length_app. apply NoDup_incl_length.
  - apply NoDup_app.
    + exact Hro.
    + eapply Subseq_NoDup; [exact Hoc | apply NoDup_created].
    + exact Hrn.
  - apply incl_app; [exact Hrc|].
    intros u Hu. eapply Subseq_In; eassumption.
Qed.

(** X6: in every world the component reaches, the preview handles owned by
    the records are pairwise distinct, so two records of the registry with
    the same [previewUrl] are one record: a handle has one owner. *)
Theorem reachable_preview_one_owner :
  forall (random_id : nat -> string) (es : list Event),
    let w := run random_id es initialWorld in
    NoDup (ownedPreviews (files w)) /\
    (forall (r r' : FileWithId) (u : string),
        In r (files w) -> In r' (files w) ->
        previewUrl r = Some u -> previewUrl r' = Some u -> r = r').
Proof.
  intros random_id es w.
  pose proof (run_consistent random_id es _ initialWorld_consistent) as Hc.
  fold w in Hc.
  assert (Hnd : NoDup (ownedPreviews (files w))).
  { eapply Subseq_NoDup; [apply (owned_created _ Hc) | apply NoDup_created]. }
  split; [exact Hnd|].
  intros r r' u Hr Hr' Hp Hp'.
  eapply ownedPreviews_owner_unique; try eassumption.
  - eapply consistent_present_owned; eassumption.
  - eapply consistent_present_owned; eassumption.
Qed.

Lemma reachable_preview_one_owner_witness :
  {| id := "i"; file := photo; previewUrl := Some "blob:0" |}
  = {| id := "i"; file := photo; previewUrl := Some "blob:0" |}.
Proof.
  apply (proj2 (reachable_preview_one_owner stuck_generator
                  [InputChange (Some [photo; photo])])
               _ _ "blob:0").
  - vm_compute. left. reflexivity.
  - vm_compute. left. reflexivity.
  - reflexivity.
  - reflexivity.
Defined.

(** ** Handles that nothing releases any more *)

Section Lost.

Variable random_id : nat -> string.

Lemma handleFileSelect_lost (o : option (list File)) (w : World) (u : string) :
  lost w u -> lost (exec (handleFileSelect random_id o) w) u.
Proof.
  intros (Hc & Hr & Ho). destruct o as [batch|]; [|repeat split; assumption].
  destruct (mapM_newFileWithId_owned random_id batch w) as (c & Hobj & Hown).
  rewrite <- handleFileSelect_objectUrls in Hobj.
  destruct (handleFileSelect_frame random_id batch w) as (_ & Hrev & _).
  pose proof (created_grows w _ c Hobj) as Hcr.
  pose proof (NoDup_created (exec (handleFileSelect random_id (Some batch)) w))
    as Hnd.
  repeat split.
  - rewrite Hcr. apply in_or_app. left. exact Hc.
  - rewrite Hrev. exact Hr.
  - rewrite handleFileSelect_files. intros Hin.
    unfold ownedPreviews in Hin. rewrite flat_map_app in Hin.
    apply in_app_or in Hin. destruct Hin as [Hin|Hin]; [exact (Ho Hin)|].
    fold (ownedPreviews (fst (mapM (newFileWithId random_id) batch w))) in Hin.
    rewrite Hown in Hin. rewrite Hcr in Hnd.
    exact (NoDup_app_disjoint _ _ u Hnd Hc Hin).
Qed.

Lemma setIsDragOver_lost (b : bool) (w : World) (u : string) :
  lost w u -> lost (exec (setIsDragOver b) w) u.
Proof. intros H. exact H. Qed.

Lemma removeFile_lost (x : string) (w : World) (u : string) :
  lost w u -> lost (exec (removeFile x) w) u.
Proof.
  intros (Hc & Hr & Ho).
  destruct (removeFile_frame x w) as (_ & _ & Hobj).
  repeat split.
  - unfold created in *. rewrite Hobj. exact Hc.
  - rewrite removeFile_revoked. intros Hin. apply in_app_or in Hin.
    destruct Hin as [Hin|Hin]; [exact (Hr Hin)|].
    apply releasedBy_owned in Hin. destruct Hin as (r & Hin & _ & Hp & Hown).
    apply Ho, in_ownedPreviews. exists r. auto.
  - rewrite removeFile_files. intros Hin. apply Ho.
    eapply Subseq_In; [|exact Hin]. apply Subseq_flat_map, Subseq_filter.
Qed.

Lemma clearAll_lost (w : World) (u : string) :
  lost w u -> lost (exec clearAll w) u.
Proof.
  intros (Hc & Hr & Ho). rewrite clearAll_world.
  repeat split; simpl; try assumption. intros [].
Qed.

Lemma handle_lost (e : Event) (w : World) (u : string) :
  lost w u -> lost (exec (handle random_id e) w) u.
Proof.
  intros H. destruct e as [o| | |dropped|x|]; simpl.
  - apply handleFileSelect_lost, H.
  - apply setIsDragOver_lost, H.
  - apply setIsDragOver_lost, H.
  - change (exec (handleDrop random_id dropped) w)
      with (exec (handleFileSelect random_id (Some dropped))
                 (exec (setIsDragOver false) w)).
    apply handleFileSelect_lost, setIsDragOver_lost, H.
  - apply removeFile_lost, H.
  - apply clearAll_lost, H.
Qed.

Lemma run_lost (es : list Event) (w : World) (u : string) :
  lost w u -> lost (run random_id es w) u.
Proof.
  revert w. induction es as [|e es IH]; intros w H; simpl.
  - exact H.
  - apply IH, handle_lost, H.
Qed.

End Lost.

(** X7: a preview handle owned by a record at the moment "Clear All" is
    clicked is released by no later interaction: it is not in the trace of
    release calls after any further sequence of selections, removals,
    clears and drags. *)
Theorem cleared_preview_never_released :
  forall (random_id : nat -> string) (before after : list Event)
         (u : string),
    let w := run random_id before initialWorld in
    In u (ownedPreviews (files w)) ->
    ~ In u (revoked (run random_id after (exec clearAll w))).
Proof.
  intros random_id before after u w Hown.
  pose proof (run_consistent random_id before _ initialWorld_consistent)
    as Hc. fold w in Hc.
  assert (Hlost : lost (exec clearAll w) u).
  { rewrite clearAll_world. repeat split; simpl.
    - eapply Subseq_In; [apply (owned_created _ Hc) | exact Hown].
    - intros Hrev. exact (revoked_not_owned _ Hc u Hrev Hown).
    - intros []. }
  apply (run_lost random_id after _ u Hlost).
Qed.

Lemma cleared_preview_never_released_witness :
  ~ In "blob:0"
       (revoked (run counting_generator
                     [InputChange (Some [photo]); RemoveClick "0";
                      RemoveClick "1"; ClearAllClick]
                     (exec clearAll
                           (run counting_generator [Drop [photo; report]]
                                initialWorld)))).
Proof.
  apply (cleared_preview_never_released counting_generator
           [Drop [photo; report]]
           [InputChange (Some [photo]); RemoveClick "0"; RemoveClick "1";
            ClearAllClick]
           "blob:0").
  vm_compute. left. reflexivity.
Defined.

(** ** No handle is lost without "Clear All" and without id collisions *)

Section Balance.

Variable random_id : nat -> string.

Lemma handleFileSelect_randomCalls (o : option (list File)) (w : World) :
  randomCalls w <= randomCalls (exec (handleFileSelect random_id o) w).
Proof.
  destruct o as [batch|]; [|apply Nat.le_refl].
  destruct (handleFileSelect_frame random_id batch w) as (_ & _ & Hc).
  rewrite Hc. lia.
Qed.

Lemma handle_randomCalls (e : Event) (w : World) :
  randomCalls w <= randomCalls (exec (handle random_id e) w).
Proof.
  destruct e as [o| | |dropped|x|]; simpl.
  - apply handleFileSelect_randomCalls.
  - apply Nat.le_refl.
  - apply Nat.le_refl.
  - change (exec (handleDrop random_id dropped) w)
      with (exec (handleFileSelect random_id (Some dropped))
                 (exec (setIsDragOver false) w)).
    apply (handleFileSelect_randomCalls (Some dropped)
             (exec (setIsDragOver false) w)).
  - destruct (removeFile_frame x w) as (_ & Hc & _). rewrite Hc.
    apply Nat.le_refl.
  - apply Nat.le_refl.
Qed.

Lemma run_randomCalls (es : list Event) (w : World) :
  randomCalls w <= randomCalls (run random_id es w).
Proof.
  revert w. induction es as [|e es IH]; intros w; simpl.
  - apply Nat.le_refl.
  - eapply Nat.le_trans; [apply handle_randomCalls | apply IH].
Qed.

Lemma draws_NoDup_earlier (w w' : World) :
  randomCalls w <= randomCalls w' ->
  NoDup (draws random_id w') -> NoDup (draws random_id w).
Proof.
  intros Hle Hnd. unfold draws in *.
  replace (randomCalls w') with (randomCalls w + (randomCalls w' - randomCalls w))
    in Hnd by lia.
  rewrite seq_app, map_app in Hnd. apply NoDup_app_remove_r in Hnd.
  exact Hnd.
Qed.

Lemma handleFileSelect_balanced (o : option (list File)) (w : World) :
  balanced w -> balanced (exec (handleFileSelect random_id o) w).
Proof.
  unfold balanced. intros H. destruct o as [batch|]; [|exact H].
  destruct (mapM_newFileWithId_owned random_id batch w) as (c & Hobj & Hown).
  rewrite <- handleFileSelect_objectUrls in Hobj.
  destruct (handleFileSelect_frame random_id batch w) as (_ & Hrev & _).
  rewrite Hobj, Hrev, handleFileSelect_files.
  unfold ownedPreviews at 1. rewrite flat_map_app, length_app.
  fold (ownedPreviews (files w)).
  fold (ownedPreviews (fst (mapM (newFileWithId random_id) batch w))).
  rewrite Hown, length_map, length_seq. lia.
Qed.

Lemma removeFile_balanced (x : string) (w : World) :
  NoDup (ids w) -> balanced w -> balanced (exec (removeFile x) w).
Proof.
  unfold balanced. intros Hnd H.
  destruct (removeFile_frame x w) as (_ & _ & Hobj).
  rewrite Hobj, removeFile_revoked, removeFile_files, length_app.
  destruct (in_dec string_dec x (ids w)) as [Hin|Hout].
  - unfold ids in Hin, Hnd. apply in_map_iff in Hin.
    destruct Hin as (r & Hid & Hin).
    apply in_split in Hin. destruct Hin as (l1 & l2 & Hl).
    rewrite Hl in *. apply NoDup_ids_split in Hnd. rewrite Hid in Hnd.
    destruct Hnd as [H1 H2].
    rewrite (filter_id_unique x l1 l2 r H1 H2 Hid).
    rewrite (releasedBy_first x l1 l2 r H1 Hid).
    rewrite H. unfold ownedPreviews.
    rewrite !flat_map_app, !length_app. simpl. rewrite length_app. lia.
  - unfold ids in Hout.
    rewrite (releasedBy_absent x _ Hout), (filter_id_absent x _ Hout).
    simpl. lia.
Qed.

Lemma run_balanced (es : list Event) (w : World) :
  forallb notClearAll es = true ->
  held_ids_drawn random_id w ->
  NoDup (draws random_id (run random_id es w)) ->
  balanced w -> balanced (run random_id es w).
Proof.
  revert w. induction es as [|e es IH]; intros w Hes Hheld Hnd Hbal.
  - exact Hbal.
  - simpl in Hes. apply andb_prop in Hes. destruct Hes as [He Hes].
    simpl in *. apply IH; try assumption.
    + apply handle_held_ids_drawn, Hheld.
    + destruct e as [o| | |dropped|x|]; simpl.
      * apply handleFileSelect_balanced, Hbal.
      * exact Hbal.
      * exact Hbal.
      * change (exec (handleDrop random_id dropped) w)
          with (exec (handleFileSelect random_id (Some dropped))
                     (exec (setIsDragOver false) w)).
        apply handleFileSelect_balanced. exact Hbal.
      * apply removeFile_balanced; [|exact Hbal].
        eapply Subseq_NoDup; [exact Hheld|].
        eapply draws_NoDup_earlier; [|exact Hnd].
        eapply Nat.le_trans; [apply (handle_randomCalls (RemoveClick x))|].
        apply run_randomCalls.
      * discriminate.
Qed.

End Balance.

(** X8: as long as "Clear All" is not clicked and the outcomes of the id
    generator are pairwise distinct, no preview handle is lost: the number
    of URLs created equals the number released plus the number still owned
    by records of the registry. *)
Theorem no_leak_without_clear :
  forall (random_id : nat -> string) (es : list Event),
    let w := run random_id es initialWorld in
    forallb notClearAll es = true ->
    NoDup (draws random_id w) ->
    objectUrls w
    = List.length (revoked w) + List.length (ownedPreviews (files w)).
Proof.
  intros random_id es w Hes Hnd.
  apply (run_balanced random_id es initialWorld Hes).
  - apply Subseq_nil.
  - exact Hnd.
  - reflexivity.
Qed.

Lemma no_leak_without_clear_witness :
  let w := run counting_generator
               [Drop [photo; report; photo]; RemoveClick "0";
                InputChange (Some [photo]); RemoveClick "1"]
               initialWorld in
  objectUrls w
  = List.length (revoked w) + List.length (ownedPreviews (files w)).
Proof.
  apply (no_leak_without_clear counting_generator
           [Drop [photo; report; photo]; RemoveClick "0";
            InputChange (Some [photo]); RemoveClick "1"]).
  - reflexivity.
  - vm_compute. repeat constructor; simpl; intuition discriminate.
Defined.

(** ** Selections, drags and drops *)

Section Selection.

Variable random_id : nat -> string.

Lemma handleFileSelect_map_file (o : option (list File)) (w : World) :
  map file (files (exec (handleFileSelect random_id o) w))
  = map file (files w) ++ match o with Some batch => batch | None => [] end.
Proof.
  destruct o as [batch|].
  - rewrite handleFileSelect_files, map_app, mapM_newFileWithId_file.
    reflexivity.
  - rewrite handleFileSelect_null, app_nil_r. reflexivity.
Qed.

Lemma handleDrop_unfold (dropped : list File) (w : World) :
  exec (handleDrop random_id dropped) w
  = exec (handleInputChange random_id (Some dropped))
         (exec handleDragLeave w).
Proof. reflexivity. Qed.

Lemma handle_keeps_map_file (e : Event) (w : World) :
  keepsRecords e = true ->
  map file (files (exec (handle random_id e) w))
  = map file (files w) ++ batchOf e.
Proof.
  intros He. destruct e as [o| | |dropped|x|]; simpl in *;
    try discriminate.
  - apply handleFileSelect_map_file.
  - rewrite app_nil_r. reflexivity.
  - rewrite app_nil_r. reflexivity.
  - rewrite handleDrop_unfold. unfold handleInputChange.
    rewrite (handleFileSelect_map_file (Some dropped)). reflexivity.
Qed.

End Selection.

(** X9: while nothing is removed or cleared, the registry holds one record
    for every file of every picked or dropped batch, in the order of the
    interactions and of the files within a batch: nothing is filtered by
    type or size, nothing is deduplicated (a file selected twice is held
    twice) and there is no limit on the count. *)
Theorem selections_accumulate :
  forall (random_id : nat -> string) (es : list Event) (w : World),
    forallb keepsRecords es = true ->
    map file (files (run random_id es w))
    = map file (files w) ++ flat_map batchOf es.
Proof.
  intros random_id es. induction es as [|e es IH]; intros w Hes; simpl.
  - rewrite app_nil_r. reflexivity.
  - simpl in Hes. apply andb_prop in Hes. destruct Hes as [He Hes].
    rewrite (IH _ Hes), (handle_keeps_map_file random_id e w He).
    rewrite <- app_assoc. reflexivity.
Qed.

Lemma selections_accumulate_witness :
  map file (files (run stuck_generator
                       [InputChange (Some [photo]); DragOver;
                        Drop [report; photo]; InputChange None;
                        InputChange (Some [photo])]
                       initialWorld))
  = [photo; report; photo; photo].
Proof.
  apply (selections_accumulate stuck_generator
           [InputChange (Some [photo]); DragOver; Drop [report; photo];
            InputChange None; InputChange (Some [photo])]
           initialWorld).
  reflexivity.
Defined.

(** X10: drag-over and drag-leave events change nothing but the drag-over
    flag: after any sequence of them the registry, the trace of release
    calls and the counts of generated ids and of created URLs are what they
    were; and after a sequence that ends with the event [e] the flag is set
    exactly when [e] is a drag-over. *)
Theorem drag_moves_only_toggle_flag :
  forall (random_id : nat -> string) (es : list Event) (w : World),
    forallb isDragMove es = true ->
    let w' := run random_id es w in
    files w' = files w /\ revoked w' = revoked w /\
    randomCalls w' = randomCalls w /\ objectUrls w' = objectUrls w /\
    (forall (es0 : list Event) (e : Event),
        es = es0 ++ [e] ->
        isDragOver w' = match e with DragOver => true | _ => false end).
Proof.
  intros random_id es. induction es as [|e es IH] using rev_ind;
    intros w Hes w'; subst w'.
  - repeat split. intros es0 e Habs. destruct es0; discriminate.
  - rewrite forallb_app in Hes. apply andb_prop in Hes.
    destruct Hes as [Hes He]. simpl in He.
    destruct (IH w Hes) as (Hf & Hr & Hc & Ho & _).
    unfold run in *. rewrite fold_left_app. simpl.
    destruct e; try discriminate; simpl; repeat split; try assumption;
      intros es0 e0 Heq; apply app_inj_tail in Heq;
      destruct Heq as [_ <-]; reflexivity.
Qed.

Lemma drag_moves_only_toggle_flag_witness :
  let w := run counting_generator [Drop [photo]] initialWorld in
  let w' := run counting_generator [DragOver; DragLeave; DragOver] w in
  files w' = files w /\ isDragOver w' = true.
Proof.
  cbv zeta. split.
  - apply (drag_moves_only_toggle_flag counting_generator
             [DragOver; DragLeave; DragOver]). reflexivity.
  - apply (proj2 (proj2 (proj2 (proj2
             (drag_moves_only_toggle_flag counting_generator
                [DragOver; DragLeave; DragOver]
                (run counting_generator [Drop [photo]] initialWorld)
                eq_refl))))
             [DragOver; DragLeave] DragOver).
    reflexivity.
Defined.

(** X11: a drop ends the drag and selects the dropped files: whatever the
    flag was, it is cleared afterwards; the records of the dropped files are
    appended in their order; nothing is released; and the world is the one
    that a drag-leave followed by picking the same files produces. *)
Theorem drop_clears_flag_and_selects :
  forall (random_id : nat -> string) (dropped : list File) (w : World),
    let w' := exec (handleDrop random_id dropped) w in
    isDragOver w' = false /\
    (exists newFiles,
        files w' = files w ++ newFiles /\ map file newFiles = dropped) /\
    revoked w' = revoked w /\
    w' = exec (handleInputChange random_id (Some dropped))
              (exec handleDragLeave w).
Proof.
  intros random_id dropped w w'. subst w'.
  rewrite handleDrop_unfold. unfold handleInputChange.
  destruct (handleFileSelect_frame random_id dropped
              (exec handleDragLeave w)) as (Hd & Hr & _).
  repeat split.
  - rewrite Hd. reflexivity.
  - exists (fst (mapM (newFileWithId random_id) dropped
                      (exec handleDragLeave w))).
    split.
    + rewrite handleFileSelect_files. reflexivity.
    + apply mapM_newFileWithId_file.
  - rewrite Hr. reflexivity.
Qed.

(** ** Removing two ids *)

Lemma filter_filter_comm {A : Type} (p q : A -> bool) (l : list A) :
  filter p (filter q l) = filter q (filter p l).
Proof.
  induction l as [|a l IH]; simpl.
  - reflexivity.
  - destruct (p a) eqn:Hp, (q a) eqn:Hq; simpl;
      rewrite ?Hp, ?Hq, IH; reflexivity.
Qed.

Lemma find_id_filter_other (x y : string) (l : list FileWithId) :
  x <> y ->
  find (fun r => id r =? x) (filter (fun r => negb (id r =? y)) l)
  = find (fun r => id r =? x) l.
Proof.
  intros Hxy. induction l as [|a l IH]; simpl.
  - reflexivity.
  - destruct (String.eqb_spec (id a) y) as [Ey|Ny]; simpl.
    + destruct (String.eqb_spec (id a) x) as [Ex|Nx]; [congruence|].
      exact IH.
    + destruct (String.eqb_spec (id a) x); [reflexivity | exact IH].
Qed.

Lemma releasedBy_filter_other (x y : string) (l : list FileWithId) :
  x <> y ->
  releasedBy x (filter (fun r => negb (id r =? y)) l) = releasedBy x l.
Proof.
  intros Hxy. unfold releasedBy. rewrite find_id_filter_other by exact Hxy.
  reflexivity.
Qed.

(** X12: removing two ids in either order leaves the same registry and the
    same drag-over flag, and releases the same handles, possibly in the
    other order; this holds for every registry, also with colliding ids. *)
Theorem remove_two_ids_commute :
  forall (x y : string) (w : World),
    let wxy := exec (removeFile y) (exec (removeFile x) w) in
    let wyx := exec (removeFile x) (exec (removeFile y) w) in
    files wxy = files wyx /\
    isDragOver wxy = isDragOver wyx /\
    Permutation (revoked wxy) (revoked wyx).
Proof.
  intros x y w wxy wyx. subst wxy wyx. repeat split.
  - rewrite !removeFile_files. apply filter_filter_comm.
  - destruct (removeFile_frame y (exec (removeFile x) w)) as (H1 & _).
    destruct (removeFile_frame x (exec (removeFile y) w)) as (H2 & _).
    destruct (removeFile_frame x w) as (H3 & _).
    destruct (removeFile_frame y w) as (H4 & _).
    congruence.
  - destruct (string_dec x y) as [->|Hxy]; [apply Permutation_refl|].
    rewrite !removeFile_revoked, !removeFile_files.
    rewrite (releasedBy_filter_other y x) by congruence.
    rewrite (releasedBy_filter_other x y) by exact Hxy.
    rewrite <- !app_assoc. apply Permutation_app_head.
    apply Permutation_app_comm.
Qed.

(** ** What is on screen *)

Lemma rowsOf_render (w : World) :
  rowsOf (render w) = map renderRow (files w).
Proof.
  unfold rowsOf, render. simpl. destruct (files w); reflexivity.
Qed.






(** X14: when the ids of the registry are pairwise distinct, a click on
    the remove button of a row takes exactly that row off the screen: the
    rows before it and after it stay as they are and in their order. *)
Theorem remove_button_removes_its_row :
  forall (random_id : nat -> string) (w : World) (row : RowView)
         (above below : list RowView),
    NoDup (ids w) ->
    rowsOf (render w) = above ++ row :: below ->
    rowsOf (render (perform random_id (removeClick row) w)) = above ++ below.
Proof.
  intros random_id w row above below Hnd Hrows.
  rewrite rowsOf_render in Hrows.
  apply map_eq_app in Hrows. destruct Hrows as (l1 & l2' & Hl & H1 & H2').
  apply map_eq_cons in H2'. destruct H2' as (r & l2 & -> & Hrow & H2).
  subst row above below. cbn [renderRow removeClick perform handle].
  rewrite rowsOf_render, removeFile_files, Hl.
  unfold ids in Hnd. rewrite Hl in Hnd. apply NoDup_ids_split in Hnd.
  destruct Hnd as [Hn1 Hn2].
  rewrite (filter_id_unique (id r) l1 l2 r Hn1 Hn2 eq_refl).
  apply map_app.
Qed.

Lemma remove_button_removes_its_row_witness :
  let w := run counting_generator [Drop [photo; report; photo]]
               initialWorld in
  rowsOf (render (perform counting_generator
                          (removeClick (renderRow
                             {| id := "1"; file := report;
                                previewUrl := None |})) w))
  = [renderRow {| id := "0"; file := photo; previewUrl := Some "blob:0" |}]
    ++ [renderRow {| id := "2"; file := photo; previewUrl := Some "blob:1" |}].
Proof.
  cbv zeta.
  apply (remove_button_removes_its_row counting_generator).
  - vm_compute. repeat constructor; simpl; intuition discriminate.
  - reflexivity.
Defined.


